(** * The idle-monitor portal (src/idle-monitor.c)

    A shallow embedding of the portal front end for the idle-monitor
    interface: the permission gate [get_idle_monitor_allowed], the worker
    [handle_get_idletime_in_thread_func], the backend completion callback
    [get_idletime_done], the method handler [handle_get_idletime], the
    backend signal callback [watch_fired_cb] and the constructor
    [idle_monitor_create].

    Every C function is a function of the same name.  The calls a function
    makes into GLib, GDBus, the permission store and the generated D-Bus
    glue are recorded, in program order, as a list of [event]s; the
    permission store is threaded through as state. *)

From stdpp Require Import base strings list.
From Stdlib Require Import ZArith Lia.

Local Open Scope Z_scope.

(** ** GLib scalar types *)

(** [gint] is a 32-bit signed integer; [G_MAXINT] is its largest value. *)
Definition G_MAXINT : Z := 2 ^ 31 - 1.
Definition G_MININT : Z := - 2 ^ 31.

Definition is_gint (z : Z) : Prop := G_MININT ≤ z ≤ G_MAXINT.

(** [guint] and [guint32] are 32-bit unsigned; a store into one wraps. *)
Definition to_guint (z : Z) : Z := z mod 2 ^ 32.

(** ** GVariant values

    Only the basic types a vardict entry of this interface can hold are
    needed.  An [a{sv}] dictionary is kept as the sequence of its entries:
    duplicates are possible on the wire and lookup takes the first. *)
Inductive GVariant : Type :=
| GV_boolean (b : bool)
| GV_byte (n : Z)
| GV_int32 (n : Z)
| GV_uint32 (n : Z)
| GV_int64 (n : Z)
| GV_uint64 (n : Z)
| GV_string (s : string)
| GV_object_path (s : string).

Definition vardict : Type := list (string * GVariant).

(** [g_variant_lookup_value]: the first entry whose key matches. *)
Fixpoint g_variant_lookup_value (dictionary : vardict) (key : string)
  : option GVariant :=
  match dictionary with
  | [] => None
  | (k, v) :: rest =>
      if String.eqb k key then Some v else g_variant_lookup_value rest key
  end.

(** [g_variant_lookup (dictionary, key, "u", &out)]: succeeds only when the
    key is present and its value has type [u]; otherwise the out argument
    is not written. *)
Definition g_variant_lookup_u (dictionary : vardict) (key : string)
  : option Z :=
  match g_variant_lookup_value dictionary key with
  | Some (GV_uint32 n) => Some n
  | _ => None
  end.

Record GError : Type := mkGError {
  error_code : Z;
  error_message : string
}.

(** ** Permissions *)

(** Modelled from the spec: permissions.h is not part of the sources at
    hand; the permission record is "one of Yes, No, Unset". *)
Inductive Permission : Type :=
| PERMISSION_UNSET
| PERMISSION_NO
| PERMISSION_YES.

Global Instance Permission_eq_dec : EqDecision Permission.
Proof. solve_decision. Defined.

Definition PERMISSION_TABLE : string := "idle-monitor".
Definition PERMISSION_ID : string := "idle-monitor".

(** Modelled from the spec: permissions.c is not part of the sources at
    hand.  The store is the external collaborator
    "Get(appId, table, id) -> {Yes, No, Unset}; Set(appId, table, id, value)";
    its state is an abstract type with these two operations. *)
Class PermissionStore (S : Type) : Type := {
  store_get : S → string → string → string → Permission;
  store_set : S → string → string → string → Permission → S
}.

(** The contract of the collaborator: a value that was set is the value
    read back, and other records are left alone. *)
Definition store_get_after_set (S : Type) `{PermissionStore S} : Prop :=
  ∀ s app table id p,
    store_get (store_set s app table id p) app table id = p.

Definition store_set_frame (S : Type) `{PermissionStore S} : Prop :=
  ∀ s app table id p app' table' id',
    (app, table, id) ≠ (app', table', id') →
    store_get (store_set s app table id p) app' table' id'
    = store_get s app' table' id'.

(** A concrete store: the records written so far, newest first; a record
    that was never written reads as [PERMISSION_UNSET]. *)
Definition permission_db : Type := list (string * string * string * Permission).

Definition same_record (app table id app' table' id' : string) : bool :=
  String.eqb app app' && String.eqb table table' && String.eqb id id'.

Fixpoint db_get (db : permission_db) (app table id : string) : Permission :=
  match db with
  | [] => PERMISSION_UNSET
  | (app', table', id', p) :: rest =>
      if same_record app' table' id' app table id then p
      else db_get rest app table id
  end.

Definition db_set (db : permission_db) (app table id : string)
  (p : Permission) : permission_db :=
  (app, table, id, p) :: db.

Global Instance db_store : PermissionStore permission_db := {|
  store_get := db_get;
  store_set := db_set
|}.

(** ** Requests *)

Record XdpAppInfo : Type := mkAppInfo {
  app_info_id : string
}.

Definition xdp_app_info_get_id (app_info : XdpAppInfo) : string :=
  app_info_id app_info.

(** The fields of [Request] this file reads: [request->id],
    [request->app_info] and [request->exported]. *)
Record Request : Type := mkRequest {
  request_id : string;
  request_app_info : XdpAppInfo;
  request_exported : bool
}.

Record GDBusMethodInvocation : Type := mkInvocation {
  invocation_sender : string;
  invocation_request : Request
}.

(** Modelled from the spec: request.c is not part of the sources at hand;
    the Request of a call is created and registered with the call and the
    handler obtains it from the invocation. *)
Definition request_from_invocation (invocation : GDBusMethodInvocation)
  : Request :=
  invocation_request invocation.

(** What [xdp_impl_idle_monitor_call_get_idletime_finish] reports: success
    with the value written through the out argument, or failure with the
    [GError]; on failure the out argument is not written. *)
Inductive finish_result : Type :=
| FinishOk (out_response : Z)
| FinishError (error : GError).

(** ** Events: the calls made into the libraries *)

Inductive log_arg : Type :=
| ArgStr (s : string)
| ArgUInt (n : Z).

Inductive event : Type :=
| E_g_debug (format : string) (args : list log_arg)
| E_g_warning (format : string) (args : list log_arg)
| E_get_permission_sync (app_id table id : string)
| E_set_permission_sync (app_id table id : string) (p : Permission)
| E_g_task_run_in_thread (task_data : string)
| E_complete_get_idletime (handle : string)
| E_call_get_idletime (handle app_id : string)
| E_emit_response (request : string) (response : Z) (results : vardict)
| E_emit_signal (destination_bus_name : option string)
    (object_path interface_name signal_name : string)
    (parameters : list GVariant)
| E_g_signal_connect (detailed_signal : string).

(** ** The backend proxy and the service object *)

Record XdpImplIdleMonitor : Type := mkProxy {
  proxy_name : string;
  proxy_object_path : string;
  proxy_default_timeout : Z
}.

Record IdleMonitor : Type := mkIdleMonitor {
  idle_monitor_version : Z
}.

(** The two file-level statics, [impl] and [idle_monitor]. *)
Record Globals : Type := mkGlobals {
  impl : option XdpImplIdleMonitor;
  idle_monitor : option IdleMonitor
}.

(** [xdp_impl_idle_monitor_proxy_new_sync]: the bus either refuses (the
    error is reported and NULL returned) or a fresh proxy comes back; a
    fresh GDBus proxy has default timeout -1. *)
Definition xdp_impl_idle_monitor_proxy_new_sync
  (name object_path : string) (failure : option GError)
  : GError + XdpImplIdleMonitor :=
  match failure with
  | Some error => inl error
  | None => inr (mkProxy name object_path (-1))
  end.

Definition g_dbus_proxy_set_default_timeout
  (proxy : XdpImplIdleMonitor) (timeout_msec : Z) : XdpImplIdleMonitor :=
  mkProxy (proxy_name proxy) (proxy_object_path proxy) timeout_msec.

(** GDBus contract of a proxy call: a call made with timeout -1 takes the
    proxy's default timeout; the timeout [G_MAXINT] means that no deadline
    is armed, -1 stands for the 25 s default. *)
Definition g_dbus_call_timeout (proxy : XdpImplIdleMonitor)
  (timeout_msec : Z) : Z :=
  if decide (timeout_msec = -1) then proxy_default_timeout proxy
  else timeout_msec.

Definition g_dbus_deadline (timeout_msec : Z) : option Z :=
  if decide (timeout_msec = G_MAXINT) then None
  else if decide (timeout_msec = -1) then Some 25000
  else Some timeout_msec.

(** [idle_monitor_init]: the instance initialiser sets version 3. *)
Definition idle_monitor_init : IdleMonitor := mkIdleMonitor 3.

Definition idle_monitor_create (globals : Globals) (dbus_name : string)
  (failure : option GError) : Globals * option IdleMonitor * list event :=
  match xdp_impl_idle_monitor_proxy_new_sync
          dbus_name "/org/freedesktop/portal/desktop" failure with
  | inl error =>
      (mkGlobals None (idle_monitor globals), None,
       [E_g_warning "Failed to create idle_monitor proxy: %s"
                    [ArgStr (error_message error)]])
  | inr proxy =>
      let proxy := g_dbus_proxy_set_default_timeout proxy G_MAXINT in
      let object := idle_monitor_init in
      (mkGlobals (Some proxy) (Some object), Some object,
       [E_g_signal_connect "watch-fired"])
  end.

(** ** The bus

    D-Bus routing of a signal: with a destination it is unicast to that
    connection, with none (NULL) it is a broadcast that reaches every
    connection on the bus. *)
Definition signal_recipients (bus : list string)
  (destination_bus_name : option string) : list string :=
  match destination_bus_name with
  | None => bus
  | Some name => filter (λ c, c = name) bus
  end.

(** The connections a trace delivers a [WatchFired (watch_id)] signal to. *)
Fixpoint watch_fired_recipients (bus : list string) (watch_id : Z)
  (trace : list event) : list string :=
  match trace with
  | [] => []
  | E_emit_signal destination _ _ "WatchFired" [GV_uint32 w] :: rest =>
      (if decide (w = watch_id) then signal_recipients bus destination else [])
      ++ watch_fired_recipients bus watch_id rest
  | _ :: rest => watch_fired_recipients bus watch_id rest
  end.

(** ** The portal code, over any permission store *)

Section Portal.
Context {S : Type} `{PermissionStore S}.

(** A computation reads and updates the permission store and yields the
    events it caused, oldest first. *)
Definition M (A : Type) : Type := S → A * S * list event.

Global Instance M_ret : MRet M := λ A a s, (a, s, []).

Global Instance M_bind : MBind M := λ A B k m s,
  let '(a, s1, l1) := m s in
  let '(b, s2, l2) := k a s1 in
  (b, s2, l1 ++ l2).

Definition value {A : Type} (r : A * S * list event) : A := r.1.1.
Definition store {A : Type} (r : A * S * list event) : S := r.1.2.
Definition events {A : Type} (r : A * S * list event) : list event := r.2.

Definition emit (e : event) : M unit := λ s, (tt, s, [e]).

Definition g_debug (format : string) (args : list log_arg) : M unit :=
  emit (E_g_debug format args).

Definition get_permission_sync (app_id table id : string) : M Permission :=
  λ s, (store_get s app_id table id, s, [E_get_permission_sync app_id table id]).

Definition set_permission_sync (app_id table id : string) (p : Permission)
  : M unit :=
  λ s, (tt, store_set s app_id table id p,
        [E_set_permission_sync app_id table id p]).

Definition g_task_run_in_thread (task_data : Request) : M unit :=
  emit (E_g_task_run_in_thread (request_id task_data)).

Definition xdp_idle_monitor_complete_get_idletime (handle : string) : M unit :=
  emit (E_complete_get_idletime handle).

Definition xdp_impl_idle_monitor_call_get_idletime (handle app_id : string)
  : M unit :=
  emit (E_call_get_idletime handle app_id).

(** The finish call writes the out argument on success only. *)
Definition xdp_impl_idle_monitor_call_get_idletime_finish
  (out_response : Z) (result : finish_result) : bool * Z :=
  match result with
  | FinishOk v => (true, to_guint v)
  | FinishError _ => (false, out_response)
  end.

Definition xdp_request_emit_response (request : Request) (response : Z)
  (results : vardict) : M unit :=
  emit (E_emit_response (request_id request) response results).

Definition g_dbus_connection_emit_signal
  (destination_bus_name : option string)
  (object_path interface_name signal_name : string)
  (parameters : list GVariant) : M unit :=
  emit (E_emit_signal destination_bus_name object_path interface_name
          signal_name parameters).

Definition get_idle_monitor_allowed (app_id : string) : M bool :=
  permission ← get_permission_sync app_id PERMISSION_TABLE PERMISSION_ID;
  if decide (permission = PERMISSION_NO) then mret false
  else
    (if decide (permission = PERMISSION_UNSET) then
       g_debug "No idle-mnoitor permissions stored for %s: allowing"
               [ArgStr app_id];;
       set_permission_sync app_id PERMISSION_TABLE PERMISSION_ID PERMISSION_YES
     else mret tt);;
    mret true.

(** The completion callback of the backend call.  It runs under the
    request lock ([REQUEST_AUTOLOCK]), so [request] is the Request as it is
    at that moment. *)
Definition get_idletime_done (request : Request) (result : finish_result)
  : M unit :=
  let response := 0 in
  let '(ok, response) :=
    xdp_impl_idle_monitor_call_get_idletime_finish response result in
  let response := if negb ok then 2 else response in
  if request_exported request then
    let new_results : vardict := [] in
    xdp_request_emit_response request response new_results
  else mret tt.

(** The task function; it runs on a worker thread, under the request
    lock.  The backend call is asynchronous: it is only issued here, with
    [get_idletime_done] as its callback and no cancellable. *)
Definition handle_get_idletime_in_thread_func (request : Request) : M unit :=
  let app_id := xdp_app_info_get_id (request_app_info request) in
  allowed ← get_idle_monitor_allowed app_id;
  if negb allowed then mret tt
  else
    g_debug "Calling idle_monitor backend for %s" [ArgStr app_id];;
    xdp_impl_idle_monitor_call_get_idletime (request_id request) app_id.

(** The method handler.  [g_task_new] and [g_task_set_task_data] only
    build the task around the Request; the handler takes no lock. *)
Definition handle_get_idletime (invocation : GDBusMethodInvocation)
  (arg_window : string) (arg_flags : Z) (arg_options : vardict) : M bool :=
  let request := request_from_invocation invocation in
  g_task_run_in_thread request;;
  xdp_idle_monitor_complete_get_idletime (request_id request);;
  mret true.

(** The handler of the backend's "watch-fired" signal.  The signal goes
    out on the connection of [impl], the bus connection, with a NULL
    destination. *)
Definition watch_fired_cb (session_id : string) (state : vardict) : M unit :=
  let watch_id := 0 in
  let is_listening := true in
  let watch_id :=
    match g_variant_lookup_u state "session-state" with
    | Some n => n
    | None => watch_id
    end in
  g_debug "Received watch-fired %s: watch-id: %d"
          [ArgStr session_id; ArgUInt watch_id];;
  if is_listening then
    g_dbus_connection_emit_signal None
      "/org/freedesktop/portal/desktop"
      "org.freedesktop.portal.IdleMonitor"
      "WatchFired"
      [GV_uint32 watch_id]
  else mret tt.

End Portal.

(** ** The life of one GetIdletime call

    Three pieces of code take part in one call, and GLib decides when each
    runs: the handler on the main thread, the task function on a worker
    thread once [g_task_run_in_thread] has queued it, and the completion
    callback once for the asynchronous backend call.  The handler does not
    hold the request lock, so after the task is queued the worker may run
    at any point relative to the rest of the handler.  [request->exported]
    belongs to request.c and may change between any two steps.

    The task function and the callback each hold the request lock for
    their whole body and are taken as one step each; the handler advances
    one library call at a time. *)

Inductive task_state : Type :=
| TaskNotRun
| TaskQueued
| CallInFlight
| TaskFinished.

Inductive action : Type :=
| RunHandler
| RunWorker
| BackendReplies (result : finish_result)
| SetExported (exported : bool).

Definition is_backend_call (e : event) : bool :=
  match e with E_call_get_idletime _ _ => true | _ => false end.

Definition is_store_access (e : event) : bool :=
  match e with
  | E_get_permission_sync _ _ _ | E_set_permission_sync _ _ _ _ => true
  | _ => false
  end.

Definition is_response (e : event) : bool :=
  match e with E_emit_response _ _ _ => true | _ => false end.

Definition is_complete (e : event) : bool :=
  match e with E_complete_get_idletime _ => true | _ => false end.

Definition is_dispatch (e : event) : bool :=
  match e with E_g_task_run_in_thread _ => true | _ => false end.

(** Does [stop] occur in the trace before any store access or backend
    call does?  (Vacuously so when neither of these occurs at all.) *)
Fixpoint precedes_checks (stop : event → bool) (trace : list event) : bool :=
  match trace with
  | [] => true
  | e :: rest =>
      if stop e then true
      else if is_store_access e || is_backend_call e then false
      else precedes_checks stop rest
  end.

Definition set_exported (request : Request) (exported : bool) : Request :=
  mkRequest (request_id request) (request_app_info request) exported.

Section Lifecycle.
Context {S : Type} `{PermissionStore S}.

Record lifecycle : Type := mkLifecycle {
  lc_request : Request;
  lc_handler : list event;
  lc_task : task_state;
  lc_store : S;
  lc_trace : list event
}.

(** A call starts with the whole handler still to run. *)
Definition lifecycle_init (invocation : GDBusMethodInvocation)
  (arg_window : string) (arg_flags : Z) (arg_options : vardict) (s : S)
  : lifecycle :=
  mkLifecycle (request_from_invocation invocation)
    (events (handle_get_idletime invocation arg_window arg_flags arg_options s))
    TaskNotRun s [].

(** One step of the call.  [RunHandler]: the main thread makes the
    handler's next call, and queuing the task makes the worker runnable.
    [RunWorker]: the queued task function runs, once.  [BackendReplies]:
    the call in flight finishes and its callback runs, once.
    [SetExported]: request.c exports or unexports the Request.  A step
    that is not enabled yields [None]. *)
Definition step (a : action) (st : lifecycle) : option lifecycle :=
  match a with
  | RunHandler =>
      match lc_handler st with
      | [] => None
      | e :: todo =>
          Some (mkLifecycle (lc_request st) todo
                  (if is_dispatch e then TaskQueued else lc_task st)
                  (lc_store st) (lc_trace st ++ [e]))
      end
  | RunWorker =>
      match lc_task st with
      | TaskQueued =>
          let r := handle_get_idletime_in_thread_func (lc_request st)
                     (lc_store st) in
          Some (mkLifecycle (lc_request st) (lc_handler st)
                  (if existsb is_backend_call (events r)
                   then CallInFlight else TaskFinished)
                  (store r) (lc_trace st ++ events r))
      | _ => None
      end
  | BackendReplies result =>
      match lc_task st with
      | CallInFlight =>
          let r := get_idletime_done (lc_request st) result (lc_store st) in
          Some (mkLifecycle (lc_request st) (lc_handler st) TaskFinished
                  (store r) (lc_trace st ++ events r))
      | _ => None
      end
  | SetExported exported =>
      Some (mkLifecycle (set_exported (lc_request st) exported)
              (lc_handler st) (lc_task st) (lc_store st) (lc_trace st))
  end.

Fixpoint run (schedule : list action) (st : lifecycle) : option lifecycle :=
  match schedule with
  | [] => Some st
  | a :: rest =>
      match step a st with
      | Some st' => run rest st'
      | None => None
      end
  end.

End Lifecycle.

(** The number of Response emissions in a trace. *)
Definition responses (trace : list event) : nat :=
  length (filter (λ e, is_response e = true) trace).

(** Every Response in the trace is for request [rid] and carries an empty
    results dictionary. *)
Definition bare_responses (rid : string) (trace : list event) : Prop :=
  ∀ rid' code results,
    E_emit_response rid' code results ∈ trace → rid' = rid ∧ results = [].

(** ** Further vocabulary for traces and schedules *)

Definition is_permission_read (e : event) : bool :=
  match e with E_get_permission_sync _ _ _ => true | _ => false end.

(** The number of backend GetIdletime calls in a trace. *)
Definition backend_calls (trace : list event) : nat :=
  length (filter (λ e, is_backend_call e = true) trace).

(** Does every [q] event of the trace have a [p] event somewhere before it?
    [seen] tells whether a [p] event came before the trace started. *)
Fixpoint only_after (p q : event → bool) (seen : bool) (trace : list event)
  : bool :=
  match trace with
  | [] => true
  | e :: rest => (negb (q e) || seen) && only_after p q (seen || p e) rest
  end.

(** The code a Response carries for a finish result. *)
Definition response_code (result : finish_result) : Z :=
  match result with
  | FinishOk v => to_guint v
  | FinishError _ => 2
  end.

(** What an event of the call of application [app] with Request [rid] looks
    like: every id in it is [rid], every permission record in it is the
    idle-monitor record of [app], the only value written is Yes, a Response
    has a 32-bit code and empty results; warnings, signals and signal
    connections do not occur. *)
Definition belongs_to_call (rid app : string) (e : event) : Prop :=
  match e with
  | E_g_debug _ _ => True
  | E_g_task_run_in_thread task_data => task_data = rid
  | E_complete_get_idletime handle => handle = rid
  | E_get_permission_sync a t i =>
      a = app ∧ t = PERMISSION_TABLE ∧ i = PERMISSION_ID
  | E_set_permission_sync a t i p =>
      a = app ∧ t = PERMISSION_TABLE ∧ i = PERMISSION_ID ∧ p = PERMISSION_YES
  | E_call_get_idletime handle a => handle = rid ∧ a = app
  | E_emit_response request code results =>
      request = rid ∧ 0 ≤ code < 2 ^ 32 ∧ results = []
  | E_g_warning _ _ | E_emit_signal _ _ _ _ _ | E_g_signal_connect _ => False
  end.

(** ** Sample data *)

Definition sample_app : XdpAppInfo := mkAppInfo "com.example.A".

Definition sample_request (exported : bool) : Request :=
  mkRequest "/org/freedesktop/portal/desktop/request/1_42/t" sample_app exported.

Definition sample_invocation (exported : bool) : GDBusMethodInvocation :=
  mkInvocation ":1.42" (sample_request exported).

Definition empty_store : permission_db := [].

Definition denying_store : permission_db :=
  db_set empty_store "com.example.A" PERMISSION_TABLE PERMISSION_ID
    PERMISSION_NO.

(** * Properties *)

(** ** The concrete store meets the collaborator's contract *)

Lemma same_record_true (app table id app' table' id' : string) :
  same_record app table id app' table' id' = true
  ↔ (app, table, id) = (app', table', id').
Proof.
  unfold same_record. rewrite !andb_true_iff, !String.eqb_eq.
  split; [by intros [[-> ->] ->] | by intros [= -> -> ->]].
Qed.

Lemma db_store_get_after_set : store_get_after_set permission_db.
Proof.
  intros db app table id p. simpl.
  by rewrite (proj2 (same_record_true app table id app table id)).
Qed.

Lemma db_store_set_frame : store_set_frame permission_db.
Proof.
  intros db app table id p app' table' id' Hne. simpl.
  destruct (same_record app table id app' table' id') eqn:Hsame; [|done].
  by apply same_record_true in Hsame.
Qed.

(** ** Dictionary lookup *)

Lemma g_variant_lookup_value_None (dictionary : vardict) (key : string) :
  g_variant_lookup_value dictionary key = None ↔ key ∉ dictionary.*1.
Proof.
  induction dictionary as [|[k v] rest IH]; simpl.
  - split; [intros _; apply not_elem_of_nil | done].
  - destruct (String.eqb_spec k key) as [->|Hne].
    + split; [done | intros Hnot; exfalso; apply Hnot; left].
    + rewrite IH, not_elem_of_cons. split; [by split | by intros [_ ?]].
Qed.

(** ** Equations of the portal functions *)

Section PortalFacts.
Context {S : Type} `{PermissionStore S}.

Lemma get_idle_monitor_allowed_eq (app_id : string) (s : S) :
  get_idle_monitor_allowed app_id s =
  match store_get s app_id PERMISSION_TABLE PERMISSION_ID with
  | PERMISSION_NO =>
      (false, s, [E_get_permission_sync app_id PERMISSION_TABLE PERMISSION_ID])
  | PERMISSION_UNSET =>
      (true, store_set s app_id PERMISSION_TABLE PERMISSION_ID PERMISSION_YES,
       [E_get_permission_sync app_id PERMISSION_TABLE PERMISSION_ID;
        E_g_debug "No idle-mnoitor permissions stored for %s: allowing"
          [ArgStr app_id];
        E_set_permission_sync app_id PERMISSION_TABLE PERMISSION_ID
          PERMISSION_YES])
  | PERMISSION_YES =>
      (true, s, [E_get_permission_sync app_id PERMISSION_TABLE PERMISSION_ID])
  end.
Proof.
  unfold get_idle_monitor_allowed, get_permission_sync, mbind, M_bind.
  destruct (store_get s app_id PERMISSION_TABLE PERMISSION_ID); reflexivity.
Qed.

Lemma get_idletime_done_eq (request : Request) (result : finish_result) (s : S) :
  get_idletime_done request result s =
  (tt, s,
   if request_exported request then
     [E_emit_response (request_id request)
        match result with FinishOk v => to_guint v | FinishError _ => 2 end
        []]
   else []).
Proof.
  unfold get_idletime_done.
  destruct result, (request_exported request); reflexivity.
Qed.

Lemma handle_get_idletime_eq (invocation : GDBusMethodInvocation)
  (arg_window : string) (arg_flags : Z) (arg_options : vardict) (s : S) :
  handle_get_idletime invocation arg_window arg_flags arg_options s =
  (true, s,
   [E_g_task_run_in_thread (request_id (request_from_invocation invocation));
    E_complete_get_idletime (request_id (request_from_invocation invocation))]).
Proof. reflexivity. Qed.

Lemma thread_func_denied (request : Request) (s : S) :
  value (get_idle_monitor_allowed
           (xdp_app_info_get_id (request_app_info request)) s) = false →
  handle_get_idletime_in_thread_func request s =
  (tt, s,
   [E_get_permission_sync (xdp_app_info_get_id (request_app_info request))
      PERMISSION_TABLE PERMISSION_ID]).
Proof.
  unfold handle_get_idletime_in_thread_func, mbind, M_bind.
  rewrite get_idle_monitor_allowed_eq.
  destruct (store_get s _ PERMISSION_TABLE PERMISSION_ID);
    simpl; intros Hv; try discriminate; reflexivity.
Qed.

Lemma thread_func_allowed (request : Request) (s : S) :
  value (get_idle_monitor_allowed
           (xdp_app_info_get_id (request_app_info request)) s) = true →
  let r := get_idle_monitor_allowed
             (xdp_app_info_get_id (request_app_info request)) s in
  handle_get_idletime_in_thread_func request s =
  (tt, store r,
   events r ++
   [E_g_debug "Calling idle_monitor backend for %s"
      [ArgStr (xdp_app_info_get_id (request_app_info request))];
    E_call_get_idletime (request_id request)
      (xdp_app_info_get_id (request_app_info request))]).
Proof.
  unfold handle_get_idletime_in_thread_func, mbind, M_bind.
  rewrite get_idle_monitor_allowed_eq.
  destruct (store_get s _ PERMISSION_TABLE PERMISSION_ID);
    simpl; intros Hv; try discriminate; reflexivity.
Qed.

Lemma allowed_events_quiet (app_id : string) (s : S) (e : event) :
  e ∈ events (get_idle_monitor_allowed app_id s) →
  is_response e = false ∧ is_backend_call e = false ∧ is_dispatch e = false
  ∧ is_complete e = false.
Proof.
  rewrite get_idle_monitor_allowed_eq.
  destruct (store_get s app_id PERMISSION_TABLE PERMISSION_ID); simpl;
    rewrite ?elem_of_cons, elem_of_nil; intros Hin;
    repeat (destruct Hin as [->|Hin]; [done|]); done.
Qed.

Lemma thread_func_no_response (request : Request) (s : S) (e : event) :
  e ∈ events (handle_get_idletime_in_thread_func request s) →
  is_response e = false.
Proof.
  destruct (value (get_idle_monitor_allowed
                     (xdp_app_info_get_id (request_app_info request)) s))
    eqn:Hv.
  - rewrite (thread_func_allowed _ _ Hv). unfold events at 1. simpl.
    rewrite elem_of_app, !elem_of_cons, elem_of_nil.
    intros [Hin|[->|[->|[]]]]; try done.
    by apply allowed_events_quiet in Hin as (? & _).
  - rewrite (thread_func_denied _ _ Hv). unfold events. simpl.
    rewrite elem_of_cons, elem_of_nil. by intros [->|[]].
Qed.

End PortalFacts.

(** ** Counting responses *)

Lemma responses_app (t1 t2 : list event) :
  responses (t1 ++ t2) = (responses t1 + responses t2)%nat.
Proof. unfold responses. by rewrite filter_app, length_app. Qed.

Lemma responses_quiet (t : list event) :
  (∀ e, e ∈ t → is_response e = false) → responses t = 0%nat.
Proof.
  unfold responses. induction t as [|e t IH]; intros Hq; [done|].
  rewrite filter_cons_False.
  - apply IH. intros e' He'. apply Hq. by right.
  - rewrite (Hq e); [done | by left].
Qed.

Lemma responses_done {S : Type} `{PermissionStore S}
  (request : Request) (result : finish_result) (s : S) :
  responses (events (get_idletime_done request result s))
  = if request_exported request then 1%nat else 0%nat.
Proof.
  rewrite get_idletime_done_eq. unfold events. simpl.
  by destruct (request_exported request).
Qed.

Lemma bare_responses_app (rid : string) (t1 t2 : list event) :
  bare_responses rid t1 → bare_responses rid t2 → bare_responses rid (t1 ++ t2).
Proof.
  intros H1 H2 rid' code results. rewrite elem_of_app.
  intros [Hin|Hin]; [by apply (H1 _ code) | by apply (H2 _ code)].
Qed.

Lemma bare_responses_quiet (rid : string) (t : list event) :
  (∀ e, e ∈ t → is_response e = false) → bare_responses rid t.
Proof. intros Hq rid' code results Hin. by apply Hq in Hin. Qed.

Lemma bare_responses_done {S : Type} `{PermissionStore S}
  (request : Request) (result : finish_result) (s : S) :
  bare_responses (request_id request)
    (events (get_idletime_done request result s)).
Proof.
  rewrite get_idletime_done_eq. unfold events. simpl.
  intros rid' code results.
  destruct (request_exported request).
  - rewrite list_elem_of_singleton. by intros [= -> _ ->].
  - by rewrite elem_of_nil.
Qed.

(** ** What every schedule preserves *)

Section LifecycleFacts.
Context {S : Type} `{PermissionStore S}.

Implicit Types st : @lifecycle S.

(** How far the handler has got, against the state of the task. *)
Inductive stage (rid : string) : list event → task_state → Prop :=
| stage_entered :
    stage rid [E_g_task_run_in_thread rid; E_complete_get_idletime rid]
      TaskNotRun
| stage_dispatched t :
    t ≠ TaskNotRun → stage rid [E_complete_get_idletime rid] t
| stage_returned t :
    t ≠ TaskNotRun → stage rid [] t.

Record lifecycle_inv (rid : string) st : Prop := {
  inv_id : request_id (lc_request st) = rid;
  inv_stage : stage rid (lc_handler st) (lc_task st);
  inv_responses :
    (responses (lc_trace st)
     ≤ match lc_task st with TaskFinished => 1 | _ => 0 end)%nat;
  inv_start : lc_task st = TaskNotRun → lc_trace st = [];
  inv_dispatched :
    lc_task st ≠ TaskNotRun →
    ∃ rest, lc_trace st = E_g_task_run_in_thread rid :: rest;
  inv_completed :
    lc_handler st = [] → E_complete_get_idletime rid ∈ lc_trace st;
  inv_bare : bare_responses rid (lc_trace st)
}.

Lemma lifecycle_inv_init (invocation : GDBusMethodInvocation)
  (arg_window : string) (arg_flags : Z) (arg_options : vardict) (s : S) :
  lifecycle_inv (request_id (request_from_invocation invocation))
    (lifecycle_init invocation arg_window arg_flags arg_options s).
Proof.
  unfold lifecycle_init. rewrite handle_get_idletime_eq.
  split; simpl; try done; [apply stage_entered|].
  apply bare_responses_quiet. intros e. by rewrite elem_of_nil.
Qed.

Lemma lifecycle_inv_step (rid : string) (a : action) st st' :
  lifecycle_inv rid st → step a st = Some st' → lifecycle_inv rid st'.
Proof.
  intros [Hid Hstage Hresp Hstart Hdisp Hcompl Hbare] Hstep.
  destruct a as [| |result|exported]; simpl in Hstep.
  - (* the handler makes its next call *)
    inversion Hstage as [Hh Ht|t Hne Hh Ht|t Hne Hh Ht];
      rewrite <- Hh in Hstep; simplify_eq; simpl in *.
    + rewrite Hstart by congruence.
      split; simpl; try done.
      * by apply stage_dispatched.
      * intros _. by eexists.
      * apply bare_responses_quiet. intros e.
        rewrite list_elem_of_singleton. by intros ->.
    + destruct (Hdisp Hne) as [rest Hrest].
      split; simpl; try done.
      * by apply stage_returned.
      * rewrite responses_app. unfold responses at 2. simpl.
        destruct (lc_task st); lia.
      * intros _. rewrite Hrest. by eexists.
      * intros _. rewrite elem_of_app, list_elem_of_singleton. by right.
      * apply bare_responses_app; [done|].
        apply bare_responses_quiet. intros e.
        rewrite list_elem_of_singleton. by intros ->.
  - (* the worker runs the task function *)
    destruct (lc_task st) eqn:Ht; simplify_eq; simpl.
    destruct (Hdisp ltac:(done)) as [rest Hrest].
    assert (responses (events (handle_get_idletime_in_thread_func
                                 (lc_request st) (lc_store st))) = 0%nat)
      as Hquiet
      by (apply responses_quiet; intros e; apply thread_func_no_response).
    split; simpl; try done.
    + inversion Hstage; simplify_eq; constructor;
        by destruct (existsb _ _).
    + rewrite responses_app, Hquiet. destruct (existsb _ _); lia.
    + by destruct (existsb _ _).
    + intros _. rewrite Hrest. by eexists.
    + intros Hh. rewrite elem_of_app. left. by apply Hcompl.
    + apply bare_responses_app; [done|].
      apply bare_responses_quiet. intros e. apply thread_func_no_response.
  - (* the backend call completes and the callback runs *)
    destruct (lc_task st) eqn:Ht; simplify_eq; simpl.
    destruct (Hdisp ltac:(done)) as [rest Hrest].
    split; simpl; try done.
    + inversion Hstage; simplify_eq; by constructor.
    + rewrite responses_app, responses_done.
      destruct (request_exported (lc_request st)); lia.
    + intros _. rewrite Hrest. by eexists.
    + intros Hh. rewrite elem_of_app. left. by apply Hcompl.
    + apply bare_responses_app; [done|]. apply bare_responses_done.
  - (* request.c flips the exported flag *)
    simplify_eq. split; simpl; done.
Qed.

Lemma lifecycle_inv_run (rid : string) (schedule : list action) st st' :
  lifecycle_inv rid st → run schedule st = Some st' → lifecycle_inv rid st'.
Proof.
  revert st. induction schedule as [|a schedule IH]; intros st Hinv Hrun;
    simpl in Hrun.
  - by simplify_eq.
  - destruct (step a st) as [st1|] eqn:Hstep; [|done].
    eapply IH; [|exact Hrun]. by eapply lifecycle_inv_step.
Qed.

(** A step that is not a backend completion on an exported request leaves
    the number of responses alone. *)
Lemma step_responses (rid : string) (a : action) st st' :
  lifecycle_inv rid st → step a st = Some st' →
  responses (lc_trace st') ≠ responses (lc_trace st) →
  request_exported (lc_request st) = true ∧ ∃ result, a = BackendReplies result.
Proof.
  intros [Hid Hstage Hresp Hstart Hdisp Hcompl _] Hstep Hne.
  destruct a as [| |result|exported]; simpl in Hstep.
  - exfalso. apply Hne.
    inversion Hstage as [Hh Ht|t Hnot Hh Ht|t Hnot Hh Ht];
      rewrite <- Hh in Hstep; simplify_eq; simpl;
      rewrite responses_app; unfold responses at 2; simpl; lia.
  - exfalso. apply Hne.
    destruct (lc_task st); simplify_eq; simpl.
    rewrite responses_app, (responses_quiet (events _)); [lia|].
    intros e. apply thread_func_no_response.
  - destruct (lc_task st); simplify_eq; simpl in Hne.
    rewrite responses_app, responses_done in Hne.
    destruct (request_exported (lc_request st)); [eauto | lia].
  - by simplify_eq.
Qed.

End LifecycleFacts.

(** ** A denied call *)

Section Denied.
Context {S : Type} `{PermissionStore S}.
Implicit Types st : @lifecycle S.

(** While the caller is denied, the store stays as it was, no backend call
    is in flight and the trace holds neither a backend call nor a
    response. *)
Record denied_inv (app_info : XdpAppInfo) (s0 : S) st : Prop := {
  den_app : request_app_info (lc_request st) = app_info;
  den_store : lc_store st = s0;
  den_task : lc_task st ≠ CallInFlight;
  den_trace :
    ∀ e, e ∈ lc_trace st → is_backend_call e = false ∧ is_response e = false
}.

Lemma denied_inv_step (rid : string) (app_info : XdpAppInfo) (s0 : S)
  (a : action) st st' :
  value (get_idle_monitor_allowed (xdp_app_info_get_id app_info) s0) = false →
  lifecycle_inv rid st → denied_inv app_info s0 st →
  step a st = Some st' → denied_inv app_info s0 st'.
Proof.
  intros Hdenied Hinv [Happ Hstore Htask Htrace] Hstep.
  destruct a as [| |result|exported]; simpl in Hstep.
  - pose proof (inv_stage _ _ Hinv) as Hstage.
    inversion Hstage as [Hh Ht|t Hne Hh Ht|t Hne Hh Ht];
      rewrite <- Hh in Hstep; simplify_eq; simpl in *;
      split; simpl; try done;
      intros e; rewrite elem_of_app, list_elem_of_singleton;
      (intros [Hin| ->]; [by apply Htrace | done]).
  - destruct (lc_task st) eqn:Ht; simplify_eq.
    rewrite (thread_func_denied _ _ Hdenied). unfold events, store. simpl.
    split; simpl; try done.
    intros e. rewrite elem_of_app, list_elem_of_singleton.
    intros [Hin| ->]; [by apply Htrace | done].
  - destruct (lc_task st) eqn:Ht; simplify_eq.
  - simplify_eq. split; simpl; done.
Qed.

Lemma denied_inv_run (rid : string) (app_info : XdpAppInfo) (s0 : S)
  (schedule : list action) st st' :
  value (get_idle_monitor_allowed (xdp_app_info_get_id app_info) s0) = false →
  lifecycle_inv rid st → denied_inv app_info s0 st →
  run schedule st = Some st' → denied_inv app_info s0 st'.
Proof.
  intros Hdenied. revert st.
  induction schedule as [|a schedule IH]; intros st Hinv Hden Hrun;
    simpl in Hrun.
  - by simplify_eq.
  - destruct (step a st) as [st1|] eqn:Hstep; [|done].
    eapply IH; [| |exact Hrun].
    + by eapply lifecycle_inv_step.
    + by eapply denied_inv_step.
Qed.

End Denied.

(** * The claims *)

(** ** Watch events *)

(** C1 (the code differs): [watch_fired_cb] emits its WatchFired signal
    with a NULL destination, whichever client registered the watch; so for
    every event carrying watch id [w], every connection on the bus is
    among the recipients of WatchFired (w), not only the owner of [w]. *)
Theorem watch_fired_cb_is_broadcast :
  (∀ (S : Type) (store_ops : PermissionStore S) (session_id : string) (w : Z)
     (rest : vardict) (s : S) (bus : list string),
     watch_fired_recipients bus w
       (events (watch_fired_cb session_id
                  (("session-state", GV_uint32 w) :: rest) s))
     = bus)
  ∧ watch_fired_recipients [":1.10"; ":1.11"] 7
      (events (watch_fired_cb ":session" [("session-state", GV_uint32 7)]
                 empty_store))
    = [":1.10"; ":1.11"].
Proof.
  split; [|reflexivity].
  intros S store_ops session_id w rest s bus.
  unfold watch_fired_cb, g_variant_lookup_u, events. simpl.
  rewrite decide_True by done. apply app_nil_r.
Qed.

(** C7 (the code differs): [watch_fired_cb] consults no registration at
    all; for every event, also one whose watch id no client registered, it
    logs and then emits exactly one WatchFired signal, which reaches every
    connection on the bus.  It is a total function, so it always returns. *)
Theorem watch_fired_cb_never_drops :
  (∀ (S : Type) (store_ops : PermissionStore S) (session_id : string)
     (state : vardict) (s : S) (bus : list string),
     ∃ w,
       watch_fired_cb session_id state s =
       (tt, s,
        [E_g_debug "Received watch-fired %s: watch-id: %d"
           [ArgStr session_id; ArgUInt w];
         E_emit_signal None "/org/freedesktop/portal/desktop"
           "org.freedesktop.portal.IdleMonitor" "WatchFired" [GV_uint32 w]])
       ∧ watch_fired_recipients bus w
           (events (watch_fired_cb session_id state s)) = bus)
  ∧ events (watch_fired_cb ":session" [("session-state", GV_uint32 99)]
              empty_store)
    = [E_g_debug "Received watch-fired %s: watch-id: %d"
         [ArgStr ":session"; ArgUInt 99];
       E_emit_signal None "/org/freedesktop/portal/desktop"
         "org.freedesktop.portal.IdleMonitor" "WatchFired" [GV_uint32 99]].
Proof.
  split; [|reflexivity].
  intros S store_ops session_id state s bus.
  unfold watch_fired_cb.
  destruct (g_variant_lookup_u state "session-state") as [n|];
    [exists n | exists 0]; (split; [reflexivity|]);
    unfold events; simpl; rewrite ?decide_True by done; apply app_nil_r.
Qed.

(** C10: when the state dictionary has no "session-state" entry, or its
    entry is not an unsigned 32-bit value, the watch id keeps its initial
    value 0 and the handler still emits WatchFired carrying 0. *)
Theorem watch_fired_cb_defaults_to_zero {S : Type} `{PermissionStore S}
  (session_id : string) (state : vardict) (s : S) :
  ("session-state" ∉ state.*1
   ∨ ∃ v, g_variant_lookup_value state "session-state" = Some v
          ∧ ∀ n, v ≠ GV_uint32 n) →
  watch_fired_cb session_id state s =
  (tt, s,
   [E_g_debug "Received watch-fired %s: watch-id: %d"
      [ArgStr session_id; ArgUInt 0];
    E_emit_signal None "/org/freedesktop/portal/desktop"
      "org.freedesktop.portal.IdleMonitor" "WatchFired" [GV_uint32 0]]).
Proof.
  intros Hstate.
  assert (g_variant_lookup_u state "session-state" = None) as Hlookup.
  { unfold g_variant_lookup_u.
    destruct Hstate as [Habsent|(v & Hv & Htype)].
    - apply g_variant_lookup_value_None in Habsent. by rewrite Habsent.
    - rewrite Hv. destruct v; try done. by destruct (Htype n). }
  unfold watch_fired_cb. rewrite Hlookup. reflexivity.
Qed.

Lemma watch_fired_cb_defaults_to_zero_witness :
  g_variant_lookup_value [("session-state", GV_int32 5)] "session-state"
  = Some (GV_int32 5)
  ∧ watch_fired_cb ":session" [("session-state", GV_int32 5)] empty_store =
  (tt, empty_store,
   [E_g_debug "Received watch-fired %s: watch-id: %d"
      [ArgStr ":session"; ArgUInt 0];
    E_emit_signal None "/org/freedesktop/portal/desktop"
      "org.freedesktop.portal.IdleMonitor" "WatchFired" [GV_uint32 0]]).
Proof.
  split; [reflexivity|].
  apply (watch_fired_cb_defaults_to_zero ":session"
           [("session-state", GV_int32 5)] empty_store).
  right. exists (GV_int32 5). split; [reflexivity | discriminate].
Defined.

(** ** The permission gate *)

(** C3: the check denies exactly when the stored permission is No and then
    writes nothing; on Yes it allows and writes nothing; on Unset it allows
    and stores Yes, after which a second check for the same application
    reads Yes, allows, and performs no write: it takes the Yes path. *)
Theorem get_idle_monitor_allowed_policy {S : Type} `{PermissionStore S}
  (s : S) (app_id : string) :
  store_get_after_set S →
  let p := store_get s app_id PERMISSION_TABLE PERMISSION_ID in
  let r := get_idle_monitor_allowed app_id s in
  let read := E_get_permission_sync app_id PERMISSION_TABLE PERMISSION_ID in
  (value r = false ↔ p = PERMISSION_NO)
  ∧ (p = PERMISSION_NO → store r = s ∧ events r = [read])
  ∧ (p = PERMISSION_YES → value r = true ∧ store r = s ∧ events r = [read])
  ∧ (p = PERMISSION_UNSET →
       value r = true
       ∧ store r = store_set s app_id PERMISSION_TABLE PERMISSION_ID
                     PERMISSION_YES
       ∧ store_get (store r) app_id PERMISSION_TABLE PERMISSION_ID
         = PERMISSION_YES
       ∧ get_idle_monitor_allowed app_id (store r) = (true, store r, [read])).
Proof.
  intros Hcontract p r read. subst r.
  rewrite get_idle_monitor_allowed_eq. fold p.
  destruct p eqn:Hp; unfold value, store, events; simpl;
    repeat split; try done.
  rewrite get_idle_monitor_allowed_eq, Hcontract. reflexivity.
Qed.

Lemma get_idle_monitor_allowed_policy_witness :
  let r := get_idle_monitor_allowed "com.example.A" empty_store in
  store_get_after_set permission_db
  ∧ value r = true
  ∧ store_get (store r) "com.example.A" PERMISSION_TABLE PERMISSION_ID
    = PERMISSION_YES
  ∧ value (get_idle_monitor_allowed "com.example.A" (store r)) = true
  ∧ events (get_idle_monitor_allowed "com.example.A" (store r))
    = [E_get_permission_sync "com.example.A" PERMISSION_TABLE PERMISSION_ID].
Proof.
  destruct (get_idle_monitor_allowed_policy empty_store "com.example.A"
              db_store_get_after_set) as (_ & _ & _ & Hunset).
  destruct (Hunset eq_refl) as (Hv & _ & Hyes & Hagain).
  simpl. rewrite Hagain.
  repeat split; try assumption. apply db_store_get_after_set.
Defined.

(** ** Requests and responses *)

(** C2: over every schedule of one call, at most one Response is emitted;
    the only step that emits one is the backend completion, and only while
    the Request is exported; [get_idletime_done] emits nothing for a
    Request that is not exported. *)
Theorem single_response {S : Type} `{PermissionStore S}
  (invocation : GDBusMethodInvocation) (arg_window : string) (arg_flags : Z)
  (arg_options : vardict) (s : S) (schedule : list action)
  (st : @lifecycle S) :
  run schedule (lifecycle_init invocation arg_window arg_flags arg_options s)
  = Some st →
  (responses (lc_trace st) ≤ 1)%nat
  ∧ (∀ a st',
       step a st = Some st' →
       responses (lc_trace st') ≠ responses (lc_trace st) →
       request_exported (lc_request st) = true
       ∧ ∃ result, a = BackendReplies result)
  ∧ (∀ request result (s' : S),
       request_exported request = false →
       get_idletime_done request result s' = (tt, s', [])).
Proof.
  intros Hrun.
  pose proof (lifecycle_inv_run _ _ _ _
                (lifecycle_inv_init invocation arg_window arg_flags
                   arg_options s) Hrun) as Hinv.
  split; [|split].
  - pose proof (inv_responses _ _ Hinv) as Hle.
    destruct (lc_task st); lia.
  - intros a st' Hstep Hne. by eapply step_responses.
  - intros request result s' Hexp.
    rewrite get_idletime_done_eq, Hexp. reflexivity.
Qed.

Lemma single_response_witness :
  ∃ st,
    run [RunHandler; RunHandler; RunWorker; BackendReplies (FinishOk 4200)]
      (lifecycle_init (sample_invocation true) "" 0 [] empty_store) = Some st
    ∧ (responses (lc_trace st) ≤ 1)%nat.
Proof.
  eexists. split; [vm_compute; reflexivity|].
  eapply (single_response (sample_invocation true) "" 0 [] empty_store
            [RunHandler; RunHandler; RunWorker; BackendReplies (FinishOk 4200)]).
  vm_compute. reflexivity.
Defined.

(** C4: when the permission check for the caller resolves to denied, the
    task function only reads the permission and returns, and over every
    schedule of the call the trace holds no backend GetIdletime call and
    no Response. *)
Theorem denied_call_never_reaches_backend {S : Type} `{PermissionStore S}
  (invocation : GDBusMethodInvocation) (arg_window : string) (arg_flags : Z)
  (arg_options : vardict) (s : S) (schedule : list action)
  (st : @lifecycle S) :
  let request := request_from_invocation invocation in
  let app_id := xdp_app_info_get_id (request_app_info request) in
  value (get_idle_monitor_allowed app_id s) = false →
  run schedule (lifecycle_init invocation arg_window arg_flags arg_options s)
  = Some st →
  handle_get_idletime_in_thread_func request s =
    (tt, s, [E_get_permission_sync app_id PERMISSION_TABLE PERMISSION_ID])
  ∧ ∀ e, e ∈ lc_trace st → is_backend_call e = false ∧ is_response e = false.
Proof.
  intros request app_id Hdenied Hrun. split.
  - by apply thread_func_denied.
  - eapply (denied_inv_run _ (request_app_info request) s schedule);
      [exact Hdenied | apply lifecycle_inv_init | | exact Hrun].
    split; simpl; try done. intros e. by rewrite elem_of_nil.
Qed.

Lemma denied_call_never_reaches_backend_witness :
  ∃ st,
    value (get_idle_monitor_allowed "com.example.A" denying_store) = false
    ∧ run [RunHandler; RunWorker; RunHandler]
        (lifecycle_init (sample_invocation true) "" 0 [] denying_store)
      = Some st
    ∧ ∀ e, e ∈ lc_trace st → is_backend_call e = false ∧ is_response e = false.
Proof.
  eexists. split; [vm_compute; reflexivity|].
  split; [vm_compute; reflexivity|].
  eapply (denied_call_never_reaches_backend (sample_invocation true) "" 0 []
            denying_store [RunHandler; RunWorker; RunHandler]).
  - vm_compute. reflexivity.
  - vm_compute. reflexivity.
Defined.

(** C5, as amended: when the finish call reports an error, the response
    code is the fixed value 2 whatever the error was.  For a Request that
    is exported when the call completes, exactly one Response (2, empty
    results) is emitted through the ordinary response path, and nothing of
    the error reaches the client; for a Request that is not exported,
    nothing is emitted. *)
Theorem backend_failure_is_code_2 {S : Type} `{PermissionStore S}
  (request : Request) (error : GError) (s : S) :
  (request_exported request = true →
   get_idletime_done request (FinishError error) s =
   (tt, s, [E_emit_response (request_id request) 2 []]))
  ∧ (request_exported request = false →
     get_idletime_done request (FinishError error) s = (tt, s, []))
  ∧ (∀ e, e ∈ events (get_idletime_done request (FinishError error) s) →
          e = E_emit_response (request_id request) 2 [])
  ∧ (∀ error', get_idletime_done request (FinishError error') s
               = get_idletime_done request (FinishError error) s).
Proof.
  split; [|split; [|split]].
  - intros Hexp. rewrite get_idletime_done_eq, Hexp. reflexivity.
  - intros Hexp. rewrite get_idletime_done_eq, Hexp. reflexivity.
  - intros e. rewrite get_idletime_done_eq. unfold events. simpl.
    destruct (request_exported request).
    + by rewrite list_elem_of_singleton.
    + by rewrite elem_of_nil.
  - intros error'. by rewrite !get_idletime_done_eq.
Qed.

Lemma backend_failure_is_code_2_witness :
  request_exported (sample_request true) = true
  ∧ get_idletime_done (sample_request true)
      (FinishError (mkGError 24 "Timeout was reached")) empty_store =
    (tt, empty_store,
     [E_emit_response (request_id (sample_request true)) 2 []]).
Proof.
  split; [reflexivity|].
  destruct (backend_failure_is_code_2 (sample_request true)
              (mkGError 24 "Timeout was reached") empty_store)
    as (Hexported & _ & _).
  apply Hexported. reflexivity.
Defined.

(** C5, as stated, fails for a Request that is not exported: the backend
    call of a permitted caller fails, the callback runs, and no Response
    is emitted at all, with code 2 or any other; the call is over. *)
Lemma backend_failure_without_export_is_silent :
  ∃ st,
    run [RunHandler; RunHandler; RunWorker;
         BackendReplies (FinishError (mkGError 24 "Timeout was reached"))]
      (lifecycle_init (sample_invocation false) "" 0 [] empty_store) = Some st
    ∧ E_call_get_idletime (request_id (sample_request false)) "com.example.A"
      ∈ lc_trace st
    ∧ lc_task st = TaskFinished
    ∧ filter (λ e, is_response e = true) (lc_trace st) = []
    ∧ get_idletime_done (sample_request false)
        (FinishError (mkGError 24 "Timeout was reached")) empty_store
      = (tt, empty_store, []).
Proof.
  eexists. split; [vm_compute; reflexivity|].
  split; [|repeat split; vm_compute; reflexivity].
  simpl. rewrite !elem_of_cons. do 6 right. by left.
Qed.

(** C6, as amended: when the finish call succeeds with value [v], the
    Response of an exported Request carries [v] itself as its code (so the
    code is 0 only when the backend returned 0) and an empty results
    dictionary; over every schedule, every Response in the trace has empty
    results, so none holds an "idleTime" entry. *)
Theorem success_response_is_backend_value {S : Type} `{PermissionStore S}
  (invocation : GDBusMethodInvocation) (arg_window : string) (arg_flags : Z)
  (arg_options : vardict) (s : S) (v : Z) :
  (∀ request (s' : S),
     request_exported request = true →
     get_idletime_done request (FinishOk v) s' =
     (tt, s', [E_emit_response (request_id request) (to_guint v) []]))
  ∧ (∀ schedule (st : @lifecycle S) rid code results,
       run schedule
         (lifecycle_init invocation arg_window arg_flags arg_options s)
       = Some st →
       E_emit_response rid code results ∈ lc_trace st →
       rid = request_id (request_from_invocation invocation)
       ∧ results = []
       ∧ g_variant_lookup_value results "idleTime" = None).
Proof.
  split.
  - intros request s' Hexp. rewrite get_idletime_done_eq, Hexp. reflexivity.
  - intros schedule st rid code results Hrun Hin.
    pose proof (lifecycle_inv_run _ _ _ _
                  (lifecycle_inv_init invocation arg_window arg_flags
                     arg_options s) Hrun) as Hinv.
    destruct (inv_bare _ _ Hinv _ _ _ Hin) as [-> ->]. done.
Qed.

Lemma success_response_is_backend_value_witness :
  request_exported (sample_request true) = true
  ∧ get_idletime_done (sample_request true) (FinishOk 4200) empty_store =
    (tt, empty_store,
     [E_emit_response (request_id (sample_request true)) 4200 []]).
Proof.
  split; [reflexivity|].
  destruct (success_response_is_backend_value (sample_invocation true) "" 0 []
              empty_store 4200) as (Hdone & _).
  apply Hdone. reflexivity.
Defined.

(** C6, as stated, fails on the scenario of the specification: the
    application com.example.A with no stored permission calls GetIdleTime,
    the Request is exported and the backend returns 4200.  The one Response
    has code 4200, not 0, and its results hold no "idleTime" entry.  When
    the backend returns 0 the code is 0 and the results are empty all the
    same. *)
Lemma idle_time_missing_from_response :
  ∃ st st0,
    run [RunHandler; RunHandler; RunWorker; BackendReplies (FinishOk 4200)]
      (lifecycle_init (sample_invocation true) "" 0 [] empty_store) = Some st
    ∧ filter (λ e, is_response e = true) (lc_trace st)
      = [E_emit_response (request_id (sample_request true)) 4200 []]
    ∧ 4200 ≠ 0
    ∧ g_variant_lookup_value [] "idleTime" = None
    ∧ store_get (lc_store st) "com.example.A" PERMISSION_TABLE PERMISSION_ID
      = PERMISSION_YES
    ∧ run [RunHandler; RunHandler; RunWorker; BackendReplies (FinishOk 0)]
        (lifecycle_init (sample_invocation true) "" 0 [] empty_store)
      = Some st0
    ∧ filter (λ e, is_response e = true) (lc_trace st0)
      = [E_emit_response (request_id (sample_request true)) 0 []].
Proof.
  eexists _, _. split; [vm_compute; reflexivity|].
  do 4 (split; [vm_compute; done|]).
  split; vm_compute; reflexivity.
Qed.

(** ** The handler *)

(** C8, as amended: the handler queues the task function on a worker
    thread and then completes the call with the Request's id; it returns
    TRUE, leaves the permission store alone and makes no call to the store
    or the backend itself, and it can always run to its end without any
    step of the worker or the backend.  Over every schedule, no store
    access or backend call happens before the task is queued, and once the
    handler has returned the call has been completed with the Request's
    id. *)
Theorem handler_completes_without_blocking {S : Type} `{PermissionStore S}
  (invocation : GDBusMethodInvocation) (arg_window : string) (arg_flags : Z)
  (arg_options : vardict) (s : S) :
  let rid := request_id (request_from_invocation invocation) in
  let init := lifecycle_init invocation arg_window arg_flags arg_options s in
  handle_get_idletime invocation arg_window arg_flags arg_options s =
    (true, s, [E_g_task_run_in_thread rid; E_complete_get_idletime rid])
  ∧ (∃ st, run [RunHandler; RunHandler] init = Some st
           ∧ lc_handler st = []
           ∧ lc_store st = s
           ∧ lc_trace st
             = [E_g_task_run_in_thread rid; E_complete_get_idletime rid])
  ∧ (∀ schedule (st : @lifecycle S),
       run schedule init = Some st →
       precedes_checks is_dispatch (lc_trace st) = true
       ∧ (lc_handler st ≠ [] → is_Some (step RunHandler st))
       ∧ (lc_handler st = [] → E_complete_get_idletime rid ∈ lc_trace st)).
Proof.
  intros rid init. split; [reflexivity|]. split.
  - eexists. split; [reflexivity|]. done.
  - intros schedule st Hrun.
    pose proof (lifecycle_inv_run _ _ _ _
                  (lifecycle_inv_init invocation arg_window arg_flags
                     arg_options s) Hrun) as Hinv.
    split; [|split].
    + destruct (lc_task st) eqn:Ht;
        [ by rewrite (inv_start _ _ Hinv Ht) | | | ];
        (destruct (inv_dispatched _ _ Hinv) as [rest ->];
         [congruence | reflexivity]).
    + intros Hh. simpl. destruct (lc_handler st); [done | by eexists].
    + apply (inv_completed _ _ Hinv).
Qed.

Lemma handler_completes_without_blocking_witness :
  ∃ st,
    run [RunHandler; RunWorker; RunHandler]
      (lifecycle_init (sample_invocation true) "" 0 [] empty_store) = Some st
    ∧ precedes_checks is_dispatch (lc_trace st) = true.
Proof.
  eexists. split; [vm_compute; reflexivity|].
  destruct (handler_completes_without_blocking (sample_invocation true) "" 0
              [] empty_store) as (_ & _ & Hall).
  eapply (Hall [RunHandler; RunWorker; RunHandler]).
  vm_compute. reflexivity.
Defined.

(** C8, as stated, fails: the task is queued before the call is
    completed, so the worker may run in between.  In this schedule the
    permission store is read and written and the backend is called before
    the call is completed. *)
Lemma worker_may_run_before_completion :
  ∃ st,
    run [RunHandler; RunWorker; RunHandler]
      (lifecycle_init (sample_invocation true) "" 0 [] empty_store) = Some st
    ∧ precedes_checks is_complete (lc_trace st) = false
    ∧ lc_trace st =
      [E_g_task_run_in_thread (request_id (sample_request true));
       E_get_permission_sync "com.example.A" PERMISSION_TABLE PERMISSION_ID;
       E_g_debug "No idle-mnoitor permissions stored for %s: allowing"
         [ArgStr "com.example.A"];
       E_set_permission_sync "com.example.A" PERMISSION_TABLE PERMISSION_ID
         PERMISSION_YES;
       E_g_debug "Calling idle_monitor backend for %s"
         [ArgStr "com.example.A"];
       E_call_get_idletime (request_id (sample_request true)) "com.example.A";
       E_complete_get_idletime (request_id (sample_request true))].
Proof.
  eexists. split; [vm_compute; reflexivity|].
  split; vm_compute; reflexivity.
Qed.

(** ** Construction *)

(** C9: when the proxy is obtained, [idle_monitor_create] sets its default
    timeout to [G_MAXINT], the largest [gint]; a call made with the
    default timeout then has no deadline.  The constructor also connects
    [watch_fired_cb] to "watch-fired" and returns the service object. *)
Theorem idle_monitor_create_disables_timeout
  (globals : Globals) (dbus_name : string) :
  ∃ proxy object,
    idle_monitor_create globals dbus_name None =
      (mkGlobals (Some proxy) (Some object), Some object,
       [E_g_signal_connect "watch-fired"])
    ∧ proxy_default_timeout proxy = G_MAXINT
    ∧ (∀ z, is_gint z → z ≤ proxy_default_timeout proxy)
    ∧ g_dbus_deadline (g_dbus_call_timeout proxy (-1)) = None.
Proof.
  eexists _, _. split; [reflexivity|]. simpl.
  split; [reflexivity|]. split; [|reflexivity].
  intros z [_ Hz]. exact Hz.
Qed.

Lemma idle_monitor_create_disables_timeout_witness :
  is_gint 25000
  ∧ ∃ proxy object,
      idle_monitor_create (mkGlobals None None)
        "org.freedesktop.impl.portal.desktop.gnome" None =
        (mkGlobals (Some proxy) (Some object), Some object,
         [E_g_signal_connect "watch-fired"])
      ∧ proxy_default_timeout proxy = G_MAXINT
      ∧ 25000 ≤ proxy_default_timeout proxy.
Proof.
  assert (is_gint 25000) as Hgint by (unfold is_gint; vm_compute; split; discriminate).
  split; [exact Hgint|].
  destruct (idle_monitor_create_disables_timeout (mkGlobals None None)
              "org.freedesktop.impl.portal.desktop.gnome")
    as (proxy & object & Hcreate & Htimeout & Hmax & _).
  exists proxy, object. repeat split; [exact Hcreate | exact Htimeout |].
  apply Hmax, Hgint.
Defined.

(** * Further properties of the code *)

(** ** Facts about traces *)

Lemma backend_calls_app (t1 t2 : list event) :
  backend_calls (t1 ++ t2) = (backend_calls t1 + backend_calls t2)%nat.
Proof. unfold backend_calls. by rewrite filter_app, length_app. Qed.

Lemma backend_calls_pos (t : list event) :
  (0 < backend_calls t)%nat → existsb is_backend_call t = true.
Proof.
  unfold backend_calls. induction t as [|e t IH]; simpl; [lia|].
  destruct (is_backend_call e) eqn:He; [done|].
  rewrite filter_cons_False by (rewrite He; done). exact IH.
Qed.

Lemma only_after_seen (p q : event → bool) (t : list event) :
  only_after p q true t = true.
Proof.
  induction t as [|e t IH]; [done|]. simpl.
  by rewrite orb_true_r, IH.
Qed.

Lemma only_after_app (p q : event → bool) (seen : bool) (t1 t2 : list event) :
  only_after p q seen (t1 ++ t2)
  = only_after p q seen t1 && only_after p q (seen || existsb p t1) t2.
Proof.
  revert seen. induction t1 as [|e t1 IH]; intros seen; simpl.
  - by rewrite orb_false_r.
  - rewrite IH, orb_assoc, andb_assoc. reflexivity.
Qed.

Lemma response_code_range (result : finish_result) :
  0 ≤ response_code result < 2 ^ 32.
Proof.
  destruct result as [v|error]; simpl.
  - unfold to_guint. apply Z.mod_pos_bound. lia.
  - lia.
Qed.

(** ** The task function, case by case *)

Section WorkerFacts.
Context {S : Type} `{PermissionStore S}.

Lemma thread_func_eq (request : Request) (s : S) :
  let app_id := xdp_app_info_get_id (request_app_info request) in
  let read := E_get_permission_sync app_id PERMISSION_TABLE PERMISSION_ID in
  let calling :=
    [E_g_debug "Calling idle_monitor backend for %s" [ArgStr app_id];
     E_call_get_idletime (request_id request) app_id] in
  handle_get_idletime_in_thread_func request s =
  match store_get s app_id PERMISSION_TABLE PERMISSION_ID with
  | PERMISSION_NO => (tt, s, [read])
  | PERMISSION_UNSET =>
      (tt, store_set s app_id PERMISSION_TABLE PERMISSION_ID PERMISSION_YES,
       [read;
        E_g_debug "No idle-mnoitor permissions stored for %s: allowing"
          [ArgStr app_id];
        E_set_permission_sync app_id PERMISSION_TABLE PERMISSION_ID
          PERMISSION_YES] ++ calling)
  | PERMISSION_YES => (tt, s, read :: calling)
  end.
Proof.
  intros app_id read calling.
  unfold handle_get_idletime_in_thread_func, mbind, M_bind.
  rewrite get_idle_monitor_allowed_eq. fold app_id.
  destruct (store_get s app_id PERMISSION_TABLE PERMISSION_ID); reflexivity.
Qed.

Lemma get_idletime_done_code (request : Request) (result : finish_result)
  (s : S) :
  get_idletime_done request result s =
  (tt, s,
   if request_exported request
   then [E_emit_response (request_id request) (response_code result) []]
   else []).
Proof. by rewrite get_idletime_done_eq. Qed.

End WorkerFacts.

(** ** What every schedule preserves, continued *)

Section CallFacts.
Context {S : Type} `{PermissionStore S}.
Implicit Types st : @lifecycle S.

Record call_inv (rid app : string) (s0 : S) st : Prop := {
  ci_app : xdp_app_info_get_id (request_app_info (lc_request st)) = app;
  ci_events : Forall (belongs_to_call rid app) (lc_trace st);
  ci_calls :
    match lc_task st with
    | TaskNotRun | TaskQueued => backend_calls (lc_trace st) = 0%nat
    | CallInFlight => backend_calls (lc_trace st) = 1%nat
    | TaskFinished => (backend_calls (lc_trace st) ≤ 1)%nat
    end;
  ci_store :
    lc_store st =
    match lc_task st with
    | TaskNotRun | TaskQueued => s0
    | CallInFlight | TaskFinished => store (get_idle_monitor_allowed app s0)
    end;
  ci_read_call :
    only_after is_permission_read is_backend_call false (lc_trace st) = true;
  ci_call_response :
    only_after is_backend_call is_response false (lc_trace st) = true
}.

Lemma call_inv_init (invocation : GDBusMethodInvocation)
  (arg_window : string) (arg_flags : Z) (arg_options : vardict) (s : S) :
  call_inv (request_id (request_from_invocation invocation))
    (xdp_app_info_get_id (request_app_info (request_from_invocation invocation)))
    s (lifecycle_init invocation arg_window arg_flags arg_options s).
Proof. split; simpl; done. Qed.

Lemma call_inv_step (rid app : string) (s0 : S) (a : action) st st' :
  lifecycle_inv rid st → call_inv rid app s0 st →
  step a st = Some st' → call_inv rid app s0 st'.
Proof.
  intros Hinv [Happ Hevents Hcalls Hstore Hrc Hcr] Hstep.
  pose proof (inv_id _ _ Hinv) as Hid.
  pose proof (inv_stage _ _ Hinv) as Hstage.
  subst rid app.
  destruct a as [| |result|exported]; simpl in Hstep.
  - (* the handler makes its next call *)
    inversion Hstage as [Hh Ht|t Hne Hh Ht|t Hne Hh Ht];
      rewrite <- Hh in Hstep; simplify_eq; simpl in *.
    + (* it queues the task *)
      rewrite <- Ht in Hcalls, Hstore.
      split; simpl.
      * done.
      * apply Forall_app. split; [done | by apply Forall_singleton].
      * rewrite backend_calls_app, Hcalls. reflexivity.
      * done.
      * by rewrite only_after_app, Hrc.
      * by rewrite only_after_app, Hcr.
    + (* it completes the call *)
      split; simpl.
      * done.
      * apply Forall_app. split; [done | by apply Forall_singleton].
      * rewrite backend_calls_app.
        change (backend_calls [E_complete_get_idletime
                                 (request_id (lc_request st))]) with 0%nat.
        rewrite Nat.add_0_r. exact Hcalls.
      * done.
      * by rewrite only_after_app, Hrc.
      * by rewrite only_after_app, Hcr.
  - (* the worker runs the task function *)
    destruct (lc_task st) eqn:Ht; simplify_eq.
    rewrite thread_func_eq.
    destruct (store_get _ _ PERMISSION_TABLE PERMISSION_ID) eqn:Hp;
      unfold events, store; simpl;
      (split; simpl;
       [ done
       | apply Forall_app; split; [done|]; by repeat constructor
       | rewrite backend_calls_app, Hcalls; unfold backend_calls; simpl; lia
       | rewrite get_idle_monitor_allowed_eq, Hp; done
       | rewrite only_after_app, Hrc; simpl; by rewrite ?orb_true_r
       | rewrite only_after_app, Hcr; simpl; by rewrite ?orb_true_r ]).
  - (* the backend call completes and the callback runs *)
    destruct (lc_task st) eqn:Ht; simplify_eq.
    rewrite get_idletime_done_code. unfold events, store. simpl.
    split; simpl.
    + done.
    + apply Forall_app. split; [done|].
      destruct (request_exported (lc_request st)); [|constructor].
      apply Forall_singleton. simpl.
      split; [done|]. split; [apply response_code_range | done].
    + rewrite backend_calls_app, Hcalls.
      destruct (request_exported (lc_request st)); unfold backend_calls;
        simpl; lia.
    + done.
    + rewrite only_after_app, Hrc.
      by destruct (request_exported (lc_request st)).
    + rewrite only_after_app, Hcr, backend_calls_pos by lia.
      by destruct (request_exported (lc_request st)).
  - (* request.c flips the exported flag *)
    simplify_eq. split; simpl; done.
Qed.

Lemma call_inv_run (rid app : string) (s0 : S) (schedule : list action)
  st st' :
  lifecycle_inv rid st → call_inv rid app s0 st →
  run schedule st = Some st' → call_inv rid app s0 st'.
Proof.
  revert st. induction schedule as [|a schedule IH];
    intros st Hinv Hcall Hrun; simpl in Hrun.
  - by simplify_eq.
  - destruct (step a st) as [st1|] eqn:Hstep; [|done].
    eapply IH; [| |exact Hrun].
    + by eapply lifecycle_inv_step.
    + by eapply call_inv_step.
Qed.

End CallFacts.

(** ** The permission gate, continued *)

(** The check for one application leaves every other permission record
    as it was: other applications, other tables, other ids. *)
Theorem get_idle_monitor_allowed_frame {S : Type} `{PermissionStore S}
  (s : S) (app_id app' table' id' : string) :
  store_set_frame S →
  (app_id, PERMISSION_TABLE, PERMISSION_ID) ≠ (app', table', id') →
  store_get (store (get_idle_monitor_allowed app_id s)) app' table' id'
  = store_get s app' table' id'.
Proof.
  intros Hframe Hother. rewrite get_idle_monitor_allowed_eq.
  destruct (store_get s app_id PERMISSION_TABLE PERMISSION_ID);
    unfold store; simpl; try done.
  by apply Hframe.
Qed.

Lemma get_idle_monitor_allowed_frame_witness :
  store_set_frame permission_db
  ∧ ("com.example.A", PERMISSION_TABLE, PERMISSION_ID)
    ≠ ("com.example.B", PERMISSION_TABLE, PERMISSION_ID)
  ∧ store_get (store (get_idle_monitor_allowed "com.example.A" denying_store))
      "com.example.B" PERMISSION_TABLE PERMISSION_ID
    = store_get denying_store "com.example.B" PERMISSION_TABLE PERMISSION_ID.
Proof.
  split; [apply db_store_set_frame|]. split; [discriminate|].
  apply (get_idle_monitor_allowed_frame denying_store "com.example.A"
           "com.example.B" PERMISSION_TABLE PERMISSION_ID).
  - apply db_store_set_frame.
  - discriminate.
Defined.

(** Whatever was stored at first, after one check the record is decided
    (it is no longer Unset), and a second check gives the same verdict,
    only reads, and leaves the store as the first check left it. *)
Theorem get_idle_monitor_allowed_idempotent {S : Type} `{PermissionStore S}
  (s : S) (app_id : string) :
  store_get_after_set S →
  let first := get_idle_monitor_allowed app_id s in
  let second := get_idle_monitor_allowed app_id (store first) in
  store_get (store first) app_id PERMISSION_TABLE PERMISSION_ID
    ≠ PERMISSION_UNSET
  ∧ value second = value first
  ∧ store second = store first
  ∧ events second
    = [E_get_permission_sync app_id PERMISSION_TABLE PERMISSION_ID].
Proof.
  intros Hcontract first second. subst first second.
  rewrite (get_idle_monitor_allowed_eq app_id s).
  destruct (store_get s app_id PERMISSION_TABLE PERMISSION_ID) eqn:Hp;
    unfold value, store, events; simpl;
    rewrite get_idle_monitor_allowed_eq, ?Hcontract, ?Hp; simpl;
    by repeat split.
Qed.

Lemma get_idle_monitor_allowed_idempotent_witness :
  let first := get_idle_monitor_allowed "com.example.A" denying_store in
  let second := get_idle_monitor_allowed "com.example.A" (store first) in
  store_get_after_set permission_db
  ∧ value second = value first
  ∧ store second = store first.
Proof.
  split; [apply db_store_get_after_set|].
  destruct (get_idle_monitor_allowed_idempotent denying_store "com.example.A"
              db_store_get_after_set) as (_ & Hvalue & Hstore & _).
  split; [exact Hvalue | exact Hstore].
Defined.

(** ** The task function, continued *)

(** The task function calls the backend exactly when the stored
    permission is not No.  When it does, the call is its last action and
    its only backend call, it carries the Request's id and the caller's
    application id, and the store is by then what the permission check
    left: a first-use grant is written before the backend is called. *)
Theorem worker_calls_backend_unless_denied {S : Type} `{PermissionStore S}
  (request : Request) (s : S) :
  let app_id := xdp_app_info_get_id (request_app_info request) in
  let p := store_get s app_id PERMISSION_TABLE PERMISSION_ID in
  let r := handle_get_idletime_in_thread_func request s in
  (existsb is_backend_call (events r) = true ↔ p ≠ PERMISSION_NO)
  ∧ (p ≠ PERMISSION_NO →
     ∃ before,
       events r = before ++ [E_call_get_idletime (request_id request) app_id]
       ∧ backend_calls before = 0%nat
       ∧ (p = PERMISSION_UNSET →
          E_set_permission_sync app_id PERMISSION_TABLE PERMISSION_ID
            PERMISSION_YES ∈ before)
       ∧ store r = store (get_idle_monitor_allowed app_id s)).
Proof.
  intros app_id p r. subst r. rewrite thread_func_eq.
  rewrite get_idle_monitor_allowed_eq. fold app_id. fold p.
  destruct p eqn:Hp; unfold events, store; simpl.
  - split; [done|]. intros _.
    eexists [_; _; _; _]. split; [reflexivity|]. split; [reflexivity|].
    split; [|reflexivity]. intros _.
    rewrite !elem_of_cons. right. right. by left.
  - split; [done|]. done.
  - split; [done|]. intros _.
    eexists [_; _]. split; [reflexivity|]. split; [reflexivity|].
    split; [done | reflexivity].
Qed.

Lemma worker_calls_backend_unless_denied_witness :
  let r := handle_get_idletime_in_thread_func (sample_request true)
             empty_store in
  store_get empty_store "com.example.A" PERMISSION_TABLE PERMISSION_ID
    ≠ PERMISSION_NO
  ∧ ∃ before,
      events r = before ++ [E_call_get_idletime
                              (request_id (sample_request true))
                              "com.example.A"]
      ∧ backend_calls before = 0%nat.
Proof.
  split; [discriminate|].
  destruct (worker_calls_backend_unless_denied (sample_request true)
              empty_store) as (_ & Hcalls).
  destruct (Hcalls ltac:(discriminate)) as (before & Hevents & Hnone & _).
  exists before. split; [exact Hevents | exact Hnone].
Defined.

(** ** One call, continued *)

Section FinishedFacts.
Context {S : Type} `{PermissionStore S}.
Implicit Types st : @lifecycle S.

Lemma finished_step (rid : string) (a : action) st st' :
  lifecycle_inv rid st → lc_task st = TaskFinished →
  step a st = Some st' →
  lc_task st' = TaskFinished
  ∧ filter (λ e, is_response e = true) (lc_trace st')
    = filter (λ e, is_response e = true) (lc_trace st)
  ∧ backend_calls (lc_trace st') = backend_calls (lc_trace st)
  ∧ lc_store st' = lc_store st.
Proof.
  intros Hinv Hfin Hstep. pose proof (inv_stage _ _ Hinv) as Hstage.
  destruct a as [| |result|exported]; simpl in Hstep.
  - inversion Hstage as [Hh Ht|t Hne Hh Ht|t Hne Hh Ht];
      rewrite <- Hh in Hstep; simplify_eq; simpl; [congruence|].
    rewrite backend_calls_app, filter_app. simpl.
    rewrite app_nil_r. unfold backend_calls at 2. simpl.
    repeat split; [done | lia].
  - by rewrite Hfin in Hstep.
  - by rewrite Hfin in Hstep.
  - simplify_eq. by simpl.
Qed.

Lemma finished_run (rid : string) (schedule : list action) st st' :
  lifecycle_inv rid st → lc_task st = TaskFinished →
  run schedule st = Some st' →
  lc_task st' = TaskFinished
  ∧ filter (λ e, is_response e = true) (lc_trace st')
    = filter (λ e, is_response e = true) (lc_trace st)
  ∧ backend_calls (lc_trace st') = backend_calls (lc_trace st)
  ∧ lc_store st' = lc_store st.
Proof.
  revert st. induction schedule as [|a schedule IH];
    intros st Hinv Hfin Hrun; simpl in Hrun.
  - by simplify_eq.
  - destruct (step a st) as [st1|] eqn:Hstep; [|done].
    destruct (finished_step _ _ _ _ Hinv Hfin Hstep)
      as (Hfin1 & Hresp1 & Hcalls1 & Hstore1).
    destruct (IH st1 (lifecycle_inv_step _ _ _ _ Hinv Hstep) Hfin1 Hrun)
      as (Hfin2 & Hresp2 & Hcalls2 & Hstore2).
    repeat split; congruence.
Qed.

End FinishedFacts.

(** Over every schedule of a call, every event in the trace belongs to
    that call: the token handed to the client, the handle sent to the
    backend and the Request a Response is emitted on are all the
    Request's id; only the caller's idle-monitor permission record is read
    or written, and the only value written is Yes; a Response has a 32-bit
    code and empty results; no signal is emitted.  The backend is called
    at most once. *)
Theorem call_events_belong_to_call {S : Type} `{PermissionStore S}
  (invocation : GDBusMethodInvocation) (arg_window : string) (arg_flags : Z)
  (arg_options : vardict) (s : S) (schedule : list action)
  (st : @lifecycle S) :
  let request := request_from_invocation invocation in
  run schedule (lifecycle_init invocation arg_window arg_flags arg_options s)
  = Some st →
  Forall (belongs_to_call (request_id request)
            (xdp_app_info_get_id (request_app_info request)))
    (lc_trace st)
  ∧ (backend_calls (lc_trace st) ≤ 1)%nat.
Proof.
  intros request Hrun.
  pose proof (call_inv_run _ _ _ _ _ _
                (lifecycle_inv_init invocation arg_window arg_flags
                   arg_options s)
                (call_inv_init invocation arg_window arg_flags arg_options s)
                Hrun) as Hcall.
  split; [apply (ci_events _ _ _ _ Hcall)|].
  pose proof (ci_calls _ _ _ _ Hcall) as Hcalls.
  destruct (lc_task st); lia.
Qed.

Lemma call_events_belong_to_call_witness :
  ∃ st,
    run [RunHandler; RunWorker; RunHandler; BackendReplies (FinishOk 4200)]
      (lifecycle_init (sample_invocation true) "" 0 [] empty_store) = Some st
    ∧ Forall (belongs_to_call (request_id (sample_request true))
                "com.example.A") (lc_trace st)
    ∧ (backend_calls (lc_trace st) ≤ 1)%nat.
Proof.
  eexists. split; [vm_compute; reflexivity|].
  eapply (call_events_belong_to_call (sample_invocation true) "" 0 []
            empty_store
            [RunHandler; RunWorker; RunHandler;
             BackendReplies (FinishOk 4200)]).
  vm_compute. reflexivity.
Defined.

(** Over every schedule of a call the events come in causal order: the
    permission is read only after the task was queued, the backend is
    called only after the permission was read, and a Response is emitted
    only after the backend was called. *)
Theorem call_events_in_causal_order {S : Type} `{PermissionStore S}
  (invocation : GDBusMethodInvocation) (arg_window : string) (arg_flags : Z)
  (arg_options : vardict) (s : S) (schedule : list action)
  (st : @lifecycle S) :
  run schedule (lifecycle_init invocation arg_window arg_flags arg_options s)
  = Some st →
  only_after is_dispatch is_permission_read false (lc_trace st) = true
  ∧ only_after is_permission_read is_backend_call false (lc_trace st) = true
  ∧ only_after is_backend_call is_response false (lc_trace st) = true.
Proof.
  intros Hrun.
  pose proof (lifecycle_inv_run _ _ _ _
                (lifecycle_inv_init invocation arg_window arg_flags
                   arg_options s) Hrun) as Hinv.
  pose proof (call_inv_run _ _ _ _ _ _
                (lifecycle_inv_init invocation arg_window arg_flags
                   arg_options s)
                (call_inv_init invocation arg_window arg_flags arg_options s)
                Hrun) as Hcall.
  split; [|split].
  - destruct (lc_task st) eqn:Ht;
      [ by rewrite (inv_start _ _ Hinv Ht) | | | ];
      (destruct (inv_dispatched _ _ Hinv) as [rest ->];
       [congruence | simpl; apply only_after_seen]).
  - apply (ci_read_call _ _ _ _ Hcall).
  - apply (ci_call_response _ _ _ _ Hcall).
Qed.

Lemma call_events_in_causal_order_witness :
  ∃ st,
    run [RunHandler; RunWorker; BackendReplies (FinishOk 4200); RunHandler]
      (lifecycle_init (sample_invocation true) "" 0 [] empty_store) = Some st
    ∧ only_after is_backend_call is_response false (lc_trace st) = true.
Proof.
  eexists. split; [vm_compute; reflexivity|].
  eapply (call_events_in_causal_order (sample_invocation true) "" 0 []
            empty_store
            [RunHandler; RunWorker; BackendReplies (FinishOk 4200);
             RunHandler]).
  vm_compute. reflexivity.
Defined.

(** Once the task has finished (the caller was denied, or the completion
    callback has run), nothing that follows emits a Response, calls the
    backend or changes the permission store.  In particular a Request that
    was not exported when the backend replied never gets its Response,
    also not when it is exported afterwards. *)
Theorem finished_call_stays_silent {S : Type} `{PermissionStore S}
  (invocation : GDBusMethodInvocation) (arg_window : string) (arg_flags : Z)
  (arg_options : vardict) (s : S) (schedule later : list action)
  (st st' : @lifecycle S) :
  run schedule (lifecycle_init invocation arg_window arg_flags arg_options s)
  = Some st →
  lc_task st = TaskFinished →
  run later st = Some st' →
  lc_task st' = TaskFinished
  ∧ filter (λ e, is_response e = true) (lc_trace st')
    = filter (λ e, is_response e = true) (lc_trace st)
  ∧ backend_calls (lc_trace st') = backend_calls (lc_trace st)
  ∧ lc_store st' = lc_store st.
Proof.
  intros Hrun Hfin Hlater.
  eapply finished_run; [|exact Hfin|exact Hlater].
  eapply lifecycle_inv_run; [apply lifecycle_inv_init | exact Hrun].
Qed.

Lemma finished_call_stays_silent_witness :
  ∃ st st',
    run [RunHandler; RunWorker; BackendReplies (FinishOk 4200)]
      (lifecycle_init (sample_invocation false) "" 0 [] empty_store) = Some st
    ∧ lc_task st = TaskFinished
    ∧ run [SetExported true; RunHandler] st = Some st'
    ∧ filter (λ e, is_response e = true) (lc_trace st') = [].
Proof.
  eexists _, _. split; [vm_compute; reflexivity|].
  split; [reflexivity|]. split; [vm_compute; reflexivity|].
  edestruct (finished_call_stays_silent (sample_invocation false) "" 0 []
               empty_store
               [RunHandler; RunWorker; BackendReplies (FinishOk 4200)]
               [SetExported true; RunHandler]) as (_ & Hsame & _).
  - vm_compute. reflexivity.
  - reflexivity.
  - vm_compute. reflexivity.
  - rewrite Hsame. reflexivity.
Defined.

(** When the backend replies while the Request is exported, the trace
    then holds exactly one Response: on the Request's id, with the code
    of the reply (the value the backend returned, or 2 for a failure) and
    empty results.  When it replies while the Request is not exported,
    the trace holds none. *)
Theorem reply_decides_the_response {S : Type} `{PermissionStore S}
  (invocation : GDBusMethodInvocation) (arg_window : string) (arg_flags : Z)
  (arg_options : vardict) (s : S) (schedule : list action)
  (result : finish_result) (st st' : @lifecycle S) :
  run schedule (lifecycle_init invocation arg_window arg_flags arg_options s)
  = Some st →
  step (BackendReplies result) st = Some st' →
  filter (λ e, is_response e = true) (lc_trace st')
  = if request_exported (lc_request st)
    then [E_emit_response (request_id (request_from_invocation invocation))
            (response_code result) []]
    else [].
Proof.
  intros Hrun Hstep.
  pose proof (lifecycle_inv_run _ _ _ _
                (lifecycle_inv_init invocation arg_window arg_flags
                   arg_options s) Hrun) as Hinv.
  pose proof (inv_responses _ _ Hinv) as Hnone.
  pose proof (inv_id _ _ Hinv) as Hid.
  simpl in Hstep. destruct (lc_task st); simplify_eq. simpl.
  assert (filter (λ e, is_response e = true) (lc_trace st) = []) as Hnil.
  { apply length_zero_iff_nil. unfold responses in Hnone. lia. }
  rewrite filter_app, Hnil, get_idletime_done_code, Hid.
  unfold events. simpl.
  by destruct (request_exported (lc_request st)).
Qed.

Lemma reply_decides_the_response_witness :
  ∃ st st',
    run [RunHandler; RunWorker]
      (lifecycle_init (sample_invocation true) "" 0 [] empty_store) = Some st
    ∧ step (BackendReplies (FinishError (mkGError 24 "Timeout was reached")))
        st = Some st'
    ∧ filter (λ e, is_response e = true) (lc_trace st')
      = [E_emit_response (request_id (sample_request true)) 2 []].
Proof.
  eexists _, _. split; [vm_compute; reflexivity|].
  split; [vm_compute; reflexivity|].
  erewrite (reply_decides_the_response (sample_invocation true) "" 0 []
              empty_store [RunHandler; RunWorker]
              (FinishError (mkGError 24 "Timeout was reached"))); cycle 1.
  - vm_compute. reflexivity.
  - vm_compute. reflexivity.
  - reflexivity.
Defined.

(** Over every schedule of a call the permission store is either as it
    was, or, when the caller's record was Unset, as it was with Yes
    written to that one record.  Before the task function has run it is
    as it was. *)
Theorem call_changes_store_by_first_use_grant_only
  {S : Type} `{PermissionStore S}
  (invocation : GDBusMethodInvocation) (arg_window : string) (arg_flags : Z)
  (arg_options : vardict) (s : S) (schedule : list action)
  (st : @lifecycle S) :
  let app_id :=
    xdp_app_info_get_id (request_app_info (request_from_invocation invocation))
  in
  run schedule (lifecycle_init invocation arg_window arg_flags arg_options s)
  = Some st →
  (lc_store st = s
   ∨ (store_get s app_id PERMISSION_TABLE PERMISSION_ID = PERMISSION_UNSET
      ∧ lc_store st
        = store_set s app_id PERMISSION_TABLE PERMISSION_ID PERMISSION_YES))
  ∧ (lc_task st = TaskNotRun ∨ lc_task st = TaskQueued → lc_store st = s).
Proof.
  intros app_id Hrun.
  pose proof (call_inv_run _ _ _ _ _ _
                (lifecycle_inv_init invocation arg_window arg_flags
                   arg_options s)
                (call_inv_init invocation arg_window arg_flags arg_options s)
                Hrun) as Hcall.
  pose proof (ci_store _ _ _ _ Hcall) as Hstore. fold app_id in Hstore.
  rewrite get_idle_monitor_allowed_eq in Hstore. unfold store in Hstore.
  split.
  - destruct (lc_task st); [by left | by left | |];
      destruct (store_get s app_id PERMISSION_TABLE PERMISSION_ID);
      simpl in Hstore; auto.
  - intros [Ht|Ht]; by rewrite Ht in Hstore.
Qed.

Lemma call_changes_store_by_first_use_grant_only_witness :
  ∃ st,
    run [RunHandler; RunWorker]
      (lifecycle_init (sample_invocation true) "" 0 [] empty_store) = Some st
    ∧ lc_store st
      = store_set empty_store "com.example.A" PERMISSION_TABLE PERMISSION_ID
          PERMISSION_YES.
Proof.
  eexists. split; [vm_compute; reflexivity|].
  edestruct (call_changes_store_by_first_use_grant_only
               (sample_invocation true) "" 0 [] empty_store
               [RunHandler; RunWorker]) as ([Hsame|[_ Hgrant]] & _).
  - vm_compute. reflexivity.
  - discriminate Hsame.
  - exact Hgrant.
Defined.

(** ** The completion callback, continued *)

(** For an exported Request, a successful reply is reported exactly like a
    failed call if and only if the value the backend returned is 2 (as a
    32-bit unsigned number): the client cannot tell the two apart.  The
    callback never changes the permission store. *)
Theorem success_looks_like_failure_iff_2 {S : Type} `{PermissionStore S}
  (request : Request) (v : Z) (error : GError) (s : S) :
  request_exported request = true →
  (get_idletime_done request (FinishOk v) s
   = get_idletime_done request (FinishError error) s
   ↔ v mod 2 ^ 32 = 2)
  ∧ store (get_idletime_done request (FinishOk v) s) = s
  ∧ store (get_idletime_done request (FinishError error) s) = s.
Proof.
  intros Hexp. rewrite !get_idletime_done_eq, Hexp. unfold store, to_guint.
  simpl. split; [|done]. split.
  - by intros [= Hv].
  - by intros ->.
Qed.

Lemma success_looks_like_failure_iff_2_witness :
  request_exported (sample_request true) = true
  ∧ get_idletime_done (sample_request true) (FinishOk (2 ^ 32 + 2)) empty_store
    = get_idletime_done (sample_request true)
        (FinishError (mkGError 24 "Timeout was reached")) empty_store.
Proof.
  split; [reflexivity|].
  destruct (success_looks_like_failure_iff_2 (sample_request true)
              (2 ^ 32 + 2) (mkGError 24 "Timeout was reached") empty_store
              eq_refl) as ([_ Hsame] & _).
  apply Hsame. reflexivity.
Defined.

(** ** Watch events, continued *)

Lemma g_variant_lookup_value_app (before after : vardict) (key : string) :
  key ∉ before.*1 →
  g_variant_lookup_value (before ++ after) key
  = g_variant_lookup_value after key.
Proof.
  induction before as [|[k v] before IH]; simpl; [done|].
  rewrite not_elem_of_cons. intros [Hne Hrest].
  destruct (String.eqb_spec k key) as [->|_]; [done | by apply IH].
Qed.

(** Only the first "session-state" entry of the state dictionary counts:
    entries under other keys before it and everything after it, further
    "session-state" entries included, make no difference to what the
    handler does.  When that first entry is an unsigned 32-bit [w], the
    signal is WatchFired (w); the session id goes to the log only and the
    permission store is left alone. *)
Theorem watch_fired_cb_first_entry_decides {S : Type} `{PermissionStore S}
  (session_id : string) (before after : vardict) (v : GVariant) (s : S) :
  "session-state" ∉ before.*1 →
  watch_fired_cb session_id (before ++ ("session-state", v) :: after) s
  = watch_fired_cb session_id [("session-state", v)] s
  ∧ (∀ w, v = GV_uint32 w →
       watch_fired_cb session_id (before ++ ("session-state", v) :: after) s =
       (tt, s,
        [E_g_debug "Received watch-fired %s: watch-id: %d"
           [ArgStr session_id; ArgUInt w];
         E_emit_signal None "/org/freedesktop/portal/desktop"
           "org.freedesktop.portal.IdleMonitor" "WatchFired" [GV_uint32 w]])).
Proof.
  intros Habsent.
  assert (g_variant_lookup_u (before ++ ("session-state", v) :: after)
            "session-state"
          = g_variant_lookup_u [("session-state", v)] "session-state")
    as Hlookup.
  { unfold g_variant_lookup_u.
    by rewrite g_variant_lookup_value_app. }
  split.
  - unfold watch_fired_cb. by rewrite Hlookup.
  - intros w ->. unfold watch_fired_cb. by rewrite Hlookup.
Qed.

Lemma watch_fired_cb_first_entry_decides_witness :
  ("session-state" ∉ ([("reason", GV_string "idle")] : vardict).*1)
  ∧ watch_fired_cb ":session"
      ([("reason", GV_string "idle")]
       ++ ("session-state", GV_uint32 7) :: [("session-state", GV_uint32 9)])
      empty_store
    = watch_fired_cb ":session" [("session-state", GV_uint32 7)] empty_store.
Proof.
  assert ("session-state" ∉ ([("reason", GV_string "idle")] : vardict).*1)
    as Habsent.
  { simpl. rewrite list_elem_of_singleton. discriminate. }
  split; [exact Habsent|].
  destruct (watch_fired_cb_first_entry_decides ":session"
              [("reason", GV_string "idle")] [("session-state", GV_uint32 9)]
              (GV_uint32 7) empty_store Habsent) as [Hsame _].
  exact Hsame.
Defined.

(** ** Construction, continued *)

(** The constructor returns the service object, keeps a proxy in [impl]
    and connects the "watch-fired" handler exactly when the proxy could be
    created.  When it could not, it returns NULL, [impl] is NULL,
    [idle_monitor] stays what it was, and the only thing that happens is
    one warning carrying the error's message.  When it could, the proxy
    is for the given bus name at the portal's object path and the object
    has version 3. *)
Theorem idle_monitor_create_outcome
  (globals : Globals) (dbus_name : string) (failure : option GError) :
  let r := idle_monitor_create globals dbus_name failure in
  (is_Some r.1.2 ↔ failure = None)
  ∧ (is_Some (impl r.1.1) ↔ failure = None)
  ∧ (E_g_signal_connect "watch-fired" ∈ r.2 ↔ failure = None)
  ∧ (∀ error, failure = Some error →
       r = (mkGlobals None (idle_monitor globals), None,
            [E_g_warning "Failed to create idle_monitor proxy: %s"
               [ArgStr (error_message error)]]))
  ∧ (failure = None →
       r.1.2 = Some (mkIdleMonitor 3)
       ∧ idle_monitor r.1.1 = r.1.2
       ∧ ∃ proxy, impl r.1.1 = Some proxy
                  ∧ proxy_name proxy = dbus_name
                  ∧ proxy_object_path proxy
                    = "/org/freedesktop/portal/desktop").
Proof.
  destruct failure as [error|]; simpl.
  - split; [split; [by intros [? ?] | done]|].
    split; [split; [by intros [? ?] | done]|].
    split; [split; [by rewrite list_elem_of_singleton | done]|].
    split; [by intros ? [= ->] | done].
  - split; [split; [done | intros _; by eexists]|].
    split; [split; [done | intros _; by eexists]|].
    split; [split; [done | intros _; by rewrite list_elem_of_singleton]|].
    split; [done|]. intros _.
    split; [done|]. split; [done|]. by eexists.
Qed.

Lemma idle_monitor_create_outcome_witness :
  let r := idle_monitor_create (mkGlobals None None)
             "org.freedesktop.impl.portal.desktop.gnome"
             (Some (mkGError 2 "The name is not activatable")) in
  r = (mkGlobals None None, None,
       [E_g_warning "Failed to create idle_monitor proxy: %s"
          [ArgStr "The name is not activatable"]]).
Proof.
  destruct (idle_monitor_create_outcome (mkGlobals None None)
              "org.freedesktop.impl.portal.desktop.gnome"
              (Some (mkGError 2 "The name is not activatable")))
    as (_ & _ & _ & Hfailed & _).
  apply (Hfailed _ eq_refl).
Defined.
